(* Verification development for the "Sekante -> Tangente" applet
   (src/unnamed/part_000, the <script> block of App.svelte).

   Numbers.  JavaScript numbers are modelled by exact rationals [Q]: every
   constant of the component (0.01, 1.5, 0x27, ...) is a rational, the
   arithmetic is exact, and rounding is written out where the code rounds
   (Math.round, Number.prototype.toFixed).  Division [Qdiv] agrees with the
   JavaScript division whenever the divisor is not zero; the only division by
   a variable quantity is the one by deltaX in slope_sek.

   Strings.  The SVG "points" strings and the color strings are built with
   [String.string].  Number::toString (used by template literals, and by
   toFixed for magnitudes >= 1e21) is kept abstract as the section variable
   [Number_toString]. *)

From Stdlib Require Import QArith Qfield Qround Qabs Qminmax ZArith List String Ascii Lia Lqa.
Import ListNotations.
Open Scope Q_scope.

(* ------------------------------------------------------------------------- *)
(** * JavaScript numeric and string primitives used by the component *)

(** The relational operators < and <= on finite numbers. *)
Definition Qlt_bool (a b : Q) : bool := negb (Qle_bool b a).

(** Math.round: the integer closest to [x], ties towards +infinity. *)
Definition Math_round (x : Q) : Z := Qfloor (x + (1#2)).

(** Math.abs and Math.min on finite numbers. *)
Definition Math_abs (x : Q) : Q := Qabs x.
Definition Math_min (a b : Q) : Q := if Qle_bool a b then a else b.

(** Decimal digits of a natural number, most significant first. *)
Fixpoint uint_to_string (d : Decimal.uint) : string :=
  match d with
  | Decimal.Nil => EmptyString
  | Decimal.D0 d => String "0" (uint_to_string d)
  | Decimal.D1 d => String "1" (uint_to_string d)
  | Decimal.D2 d => String "2" (uint_to_string d)
  | Decimal.D3 d => String "3" (uint_to_string d)
  | Decimal.D4 d => String "4" (uint_to_string d)
  | Decimal.D5 d => String "5" (uint_to_string d)
  | Decimal.D6 d => String "6" (uint_to_string d)
  | Decimal.D7 d => String "7" (uint_to_string d)
  | Decimal.D8 d => String "8" (uint_to_string d)
  | Decimal.D9 d => String "9" (uint_to_string d)
  end.

(** Number::toString of an integer-valued number. *)
Definition N_to_string (n : N) : string := uint_to_string (N.to_uint n).
Definition Z_to_string (z : Z) : string :=
  match z with
  | Z.neg p => String "-" (N_to_string (Npos p))
  | _ => N_to_string (Z.to_N z)
  end.

Fixpoint zeros (k : nat) : string :=
  match k with O => EmptyString | S k => String "0" (zeros k) end.

(** The integer [n] of Number.prototype.toFixed step 10: for [x >= 0], the
    integer for which n / 10^f - x is as close to zero as possible, the larger
    one on a tie. *)
Definition toFixed_int (x : Q) (f : nat) : Z :=
  Qfloor (x * inject_Z (10 ^ Z.of_nat f) + (1#2)).

Section Js.

(** Number::toString, for the values the code prints with a template literal. *)
Variable Number_toString : Q -> string.

(** Number.prototype.toFixed(f) (ECMAScript 21.1.3.3) on a finite number. *)
Definition toFixed (x0 : Q) (f : nat) : string :=
  let s := if Qlt_bool x0 0 then "-"%string else EmptyString in
  let x := Qabs x0 in
  if Qle_bool (inject_Z (10 ^ 21)) x then append s (Number_toString x)
  else
    let n := toFixed_int x f in
    let m := if Z.eqb n 0 then "0"%string else Z_to_string n in
    match f with
    | O => append s m
    | S _ =>
        let k := String.length m in
        let m := if Nat.leb k f then append (zeros (f + 1 - k)) m else m in
        let k := String.length m in
        append s (append (substring 0 (k - f) m)
                         (append "." (substring (k - f) f m)))
    end.

End Js.

(** +(v.toFixed(6)): the number read back from the toFixed string. *)
Definition plus_toFixed (v : Q) (f : nat) : Q :=
  if Qle_bool (inject_Z (10 ^ 21)) (Qabs v) then Qred v
  else
    let n := toFixed_int (Qabs v) f in
    let q := Qred (inject_Z n / inject_Z (10 ^ Z.of_nat f)) in
    if Qlt_bool v 0 then Qred (- q) else q.

(* ------------------------------------------------------------------------- *)
(** * Mathematics: function and derivative *)

(** const f  = x => x * x - 2 * x + 3; *)
Definition f (x : Q) : Q := x * x - 2 * x + 3.

(** const df = x => 2 * x - 2; *)
Definition df (x : Q) : Q := 2 * x - 2.

(* ------------------------------------------------------------------------- *)
(** * Viewport constants and the coordinate transformation *)

Definition VW : Q := 600.
Definition VH : Q := 400.

Record Pad := { top : Q; right : Q; bottom : Q; left : Q }.
Definition PAD : Pad := {| top := 20; right := 20; bottom := 50; left := 55 |}.

Definition xMin : Q := 0.
Definition xMax : Q := 4.
Definition yMin : Q := 0.
Definition yMax : Q := 9.

Definition plotW : Q := VW - left PAD - right PAD.
Definition plotH : Q := VH - top PAD - bottom PAD.

(** const toSvgX = x => PAD.left + (x - xMin) / (xMax - xMin) * plotW; *)
Definition toSvgX (x : Q) : Q := left PAD + (x - xMin) / (xMax - xMin) * plotW.

(** const toSvgY = y => PAD.top + (1 - (y - yMin) / (yMax - yMin)) * plotH; *)
Definition toSvgY (y : Q) : Q := top PAD + (1 - (y - yMin) / (yMax - yMin)) * plotH.

(* ------------------------------------------------------------------------- *)
(** * Dense x-values, tick generation, error color *)

(** const xs = Array.from({ length: 300 }, (_, i) => xMin + i * (xMax - xMin) / 299); *)
Definition xs : list Q :=
  map (fun i : nat => xMin + inject_Z (Z.of_nat i) * (xMax - xMin) / 299) (seq 0 300).

Definition ticks_eps : Q := 1 # 1000000000.

(** function ticks(min, max, step) {
      const result = [];
      for (let v = min; v <= max + 1e-9; v += step) result.push(+v.toFixed(6));
      return result; }
    The loop as a big-step relation: [ticks_loop max step v r] holds when the
    loop entered with the current value [v] terminates having pushed [r].  A
    loop that does not terminate (step <= 0) has no derivation. *)
Inductive ticks_loop (max step : Q) : Q -> list Q -> Prop :=
| ticks_exit v :
    ~ (v <= max + ticks_eps) -> ticks_loop max step v []
| ticks_push v r :
    v <= max + ticks_eps -> ticks_loop max step (v + step) r ->
    ticks_loop max step v (plus_toFixed v 6 :: r).

Definition ticks (min max step : Q) (result : list Q) : Prop :=
  ticks_loop max step min result.

(** The same loop run for at most [fuel] iterations ([None]: not finished). *)
Fixpoint ticks_run (fuel : nat) (max step v : Q) : option (list Q) :=
  match fuel with
  | O => None
  | S fuel =>
      if Qle_bool v (max + ticks_eps) then
        match ticks_run fuel max step (v + step) with
        | Some r => Some (plus_toFixed v 6 :: r)
        | None => None
        end
      else Some []
  end.

(** Math.round(a + t * (b - a)) for one color channel. *)
Definition channel (a b : Z) (t : Q) : Z :=
  Math_round (inject_Z a + t * (inject_Z b - inject_Z a)).

(** function interpolateColor(t) {
      const r = Math.round(0x27 + t * (0xc0 - 0x27));
      const g = Math.round(0xae + t * (0x39 - 0xae));
      const b = Math.round(0x60 + t * (0x2b - 0x60));
      return `rgb(${r},${g},${b})`; } *)
Definition interpolateColor (t : Q) : string :=
  let r := channel 0x27 0xc0 t in
  let g := channel 0xae 0x39 t in
  let b := channel 0x60 0x2b t in
  ("rgb(" ++ Z_to_string r ++ "," ++ Z_to_string g ++ "," ++ Z_to_string b ++ ")")%string.

(* ------------------------------------------------------------------------- *)
(** * Controls *)

Definition DX_MIN : Q := 1 # 100.
Definition DX_MAX : Q := 2.
Definition DX_STEP : Q := 1 # 100.

(** {#each [2.0, 1.0, 0.5, 0.1, 0.01] as preset} *)
Definition presets : list Q := [2; 1; 1 # 2; 1 # 10; 1 # 100].

(** class:active={Math.abs(deltaX - preset) < 0.005} *)
Definition preset_active (deltaX preset : Q) : bool :=
  Qlt_bool (Math_abs (deltaX - preset)) (5 # 1000).

(** The value an <input type="range" min max step> holds after the user moves
    it to the raw position [raw] (HTML value sanitization of range inputs:
    clamp to [min, max], then round to the nearest value min + k * step, the
    larger one on a tie, and step down once if that exceeds max). *)
Definition range_value (min max step raw : Q) : Q :=
  let c := if Qlt_bool raw min then min else if Qlt_bool max raw then max else raw in
  let k := Qfloor ((c - min) / step + (1 # 2)) in
  let v := min + inject_Z k * step in
  if Qlt_bool max v then min + inject_Z (k - 1) * step else v.

(* ------------------------------------------------------------------------- *)
(** * Component state and its transitions *)

(** let deltaX = 1.5; let x0 = 2.0; *)
Record State := { deltaX : Q; x0 : Q }.

Definition init : State := {| deltaX := 3 # 2; x0 := 2 |}.

(** Every assignment to deltaX: [set_deltaX v s]. *)
Definition set_deltaX (v : Q) (s : State) : State := {| deltaX := v; x0 := x0 s |}.

(** The user events: a slider movement (bind:value={deltaX}) and a preset click
    (on:click={() => deltaX = preset}). *)
Inductive Event := Slider (raw : Q) | PresetClick (preset : Q).

Inductive step : State -> State -> Prop :=
| step_slider s raw :
    step s (set_deltaX (range_value DX_MIN DX_MAX DX_STEP raw) s)
| step_preset s p :
    In p presets -> step s (set_deltaX p s).

Inductive reachable : State -> Prop :=
| reach_init : reachable init
| reach_step s s' : reachable s -> step s s' -> reachable s'.

(* ------------------------------------------------------------------------- *)
(** * Reactive declarations ($:) *)

Section App.

Variable Number_toString : Q -> string.

Fixpoint join (sep : string) (l : list string) : string :=
  match l with
  | [] => EmptyString
  | [x] => x
  | x :: r => (x ++ sep ++ join sep r)%string
  end.

(** function makeLine(xArr, fn) {
      return xArr.map(x => `${toSvgX(x)},${toSvgY(fn(x))}`).join(' '); } *)
Definition makeLine (xArr : list Q) (fn : Q -> Q) : string :=
  join " " (map (fun x => (Number_toString (toSvgX x) ++ "," ++
                           Number_toString (toSvgY (fn x)))%string) xArr).

Record Point := { px : Q; py : Q }.

Record Derived := {
  slope_sek : Q;
  slope_tan : Q;
  slopeDisplay : string;
  errorDisplay : string;
  funcPoints : string;
  sekantePoints : string;
  tangentePoints : string;
  px0 : Point;
  px1 : Point;
  errorRatio : Q;
  errorColor : string }.

Definition derive (s : State) : Derived :=
  let x0 := x0 s in
  let deltaX := deltaX s in
  let slope_sek := (f (x0 + deltaX) - f x0) / deltaX in
  let slope_tan := df x0 in
  let errorRatio := Math_min 1 (Math_abs (slope_sek - slope_tan) / 3) in
  {| slope_sek := slope_sek;
     slope_tan := slope_tan;
     slopeDisplay := toFixed Number_toString slope_sek 4;
     errorDisplay := toFixed Number_toString (Math_abs (slope_sek - slope_tan)) 4;
     funcPoints := makeLine xs f;
     sekantePoints := makeLine xs (fun x => f x0 + slope_sek * (x - x0));
     tangentePoints := makeLine xs (fun x => f x0 + slope_tan * (x - x0));
     px0 := {| px := toSvgX x0; py := toSvgY (f x0) |};
     px1 := {| px := toSvgX (x0 + deltaX); py := toSvgY (f (x0 + deltaX)) |};
     errorRatio := errorRatio;
     errorColor := interpolateColor errorRatio |}.

End App.

(* ========================================================================= *)
(** * Properties *)

(** ** Coordinate transformation *)

Lemma plotW_value : plotW == 525.
Proof. reflexivity. Qed.

Lemma plotH_value : plotH == 330.
Proof. reflexivity. Qed.

Lemma toSvgX_affine (x : Q) : toSvgX x == 55 + (525 # 4) * x.
Proof. unfold toSvgX, xMin, xMax, plotW, VW, PAD; cbn [left right top bottom]; field. Qed.

Lemma toSvgY_affine (y : Q) : toSvgY y == 350 - (110 # 3) * y.
Proof. unfold toSvgY, yMin, yMax, plotH, VH, PAD; cbn [left right top bottom]; field. Qed.

(** C3: the mapper is the pair of affine maps toSvgX, toSvgY with left = 55,
    top = 20, plotW = 525, plotH = 330; it sends x = 0 to 55, x = 4 to 580,
    y = 0 to 350, y = 9 to 20, and it does not clamp: points outside the
    mathematical viewport land outside the plot rectangle. *)
Theorem coordinate_mapper_spec :
  left PAD = 55 /\ top PAD = 20 /\ plotW == 525 /\ plotH == 330 /\
  (forall x, toSvgX x == left PAD + (x - xMin) / (xMax - xMin) * plotW) /\
  (forall y, toSvgY y == top PAD + (1 - (y - yMin) / (yMax - yMin)) * plotH) /\
  (forall x, toSvgX x == 55 + (x - 0) / (4 - 0) * 525) /\
  (forall y, toSvgY y == 20 + (1 - (y - 0) / (9 - 0)) * 330) /\
  toSvgX 0 == 55 /\ toSvgX 4 == 55 + plotW /\ toSvgX 4 == 580 /\
  toSvgY 0 == top PAD + plotH /\ toSvgY 0 == 350 /\ toSvgY 9 == 20 /\
  (forall x, x < xMin -> toSvgX x < left PAD) /\
  (forall x, xMax < x -> left PAD + plotW < toSvgX x) /\
  (forall y, y < yMin -> top PAD + plotH < toSvgY y) /\
  (forall y, yMax < y -> toSvgY y < top PAD).
Proof.
  repeat split; try reflexivity.
  - intros x Hx; rewrite toSvgX_affine; unfold xMin in Hx; simpl; lra.
  - intros x Hx; rewrite toSvgX_affine; unfold xMax in Hx;
      rewrite plotW_value; simpl; lra.
  - intros y Hy; rewrite toSvgY_affine; unfold yMin in Hy;
      rewrite plotH_value; simpl; lra.
  - intros y Hy; rewrite toSvgY_affine; unfold yMax in Hy; simpl; lra.
Qed.

(** ** Booleans of the comparisons *)

Lemma Qlt_bool_iff (a b : Q) : Qlt_bool a b = true <-> a < b.
Proof.
  unfold Qlt_bool; rewrite Bool.negb_true_iff; split; intro H.
  - apply Qnot_le_lt; intro H'; apply Qle_bool_iff in H'; congruence.
  - destruct (Qle_bool b a) eqn:E; [|reflexivity].
    apply Qle_bool_iff in E; exfalso; apply (Qlt_not_le _ _ H E).
Qed.

(** ** Preset buttons *)

(** C7: a preset button with value p is active exactly when
    |deltaX - p| < 0.005; with preset 0.5, deltaX = 0.499 is active and
    deltaX = 0.51 is not. *)
Theorem preset_active_spec :
  (forall d p, preset_active d p = true <-> Qabs (d - p) < (5 # 1000)) /\
  preset_active (499 # 1000) (1 # 2) = true /\
  Qabs ((499 # 1000) - (1 # 2)) == (1 # 1000) /\
  preset_active (51 # 100) (1 # 2) = false.
Proof.
  split; [|split; [|split]]; try reflexivity.
  intros d p; unfold preset_active, Math_abs; apply Qlt_bool_iff.
Qed.

(** ** Error color *)

Lemma Qfloor_bounds (q : Q) :
  inject_Z (Qfloor q) <= q /\ q < inject_Z (Qfloor q + 1).
Proof. split; [apply Qfloor_le | apply Qlt_floor]. Qed.

(** Math.round lands within 1/2 of its argument. *)
Lemma Math_round_nearest (x : Q) :
  x - (1 # 2) < inject_Z (Math_round x) /\ inject_Z (Math_round x) <= x + (1 # 2).
Proof.
  unfold Math_round; destruct (Qfloor_bounds (x + (1 # 2))) as [H1 H2].
  rewrite inject_Z_plus in H2; change (inject_Z 1) with 1 in H2; split; lra.
Qed.

(** A rounded value between two integers stays between them. *)
Lemma Math_round_between (lo hi : Z) (x : Q) :
  inject_Z lo <= x <= inject_Z hi -> (lo <= Math_round x <= hi)%Z.
Proof.
  intros [Hlo Hhi]; destruct (Math_round_nearest x) as [H1 H2]; split.
  - assert (H : inject_Z (lo - 1) < inject_Z (Math_round x)).
    { unfold Z.sub; rewrite inject_Z_plus, inject_Z_opp;
      change (inject_Z 1) with 1; lra. }
    rewrite <- Zlt_Qlt in H; lia.
  - assert (H : inject_Z (Math_round x) < inject_Z (hi + 1)).
    { rewrite inject_Z_plus; change (inject_Z 1) with 1; lra. }
    rewrite <- Zlt_Qlt in H; lia.
Qed.

Lemma errorRatio_unit (NS : Q -> string) (s : State) :
  0 <= errorRatio (derive NS s) <= 1.
Proof.
  cbn [derive errorRatio]; unfold Math_min, Math_abs.
  set (e := Qabs _).
  assert (He : 0 <= e) by apply Qabs_nonneg.
  destruct (Qle_bool 1 (e / 3)) eqn:E.
  - split; [discriminate | apply Qle_refl].
  - split.
    + apply Qle_shift_div_l; [reflexivity | lra].
    + apply Qlt_le_weak, Qnot_le_lt; intro H.
      apply Qle_bool_iff in H; congruence.
Qed.

Ltac channel_bounds :=
  intros t [Ht0 Ht1]; split;
  [ apply Math_round_nearest
  | apply Math_round_between; unfold inject_Z; simpl; lra ].

(** C5: errorRatio = min(1, |slope_sek - slope_tan| / 3) and errorColor =
    interpolateColor(errorRatio), a ratio in [0, 1]; each channel is the
    linear interpolation between (0x27, 0xae, 0x60) and (0xc0, 0x39, 0x2b),
    rounded to a nearest integer in [0, 255]; ratio 0 gives rgb(39,174,96)
    and ratio 1 gives rgb(192,57,43). *)
Theorem error_color_spec :
  (forall NS s, errorRatio (derive NS s) =
     Math_min 1 (Qabs (slope_sek (derive NS s) - slope_tan (derive NS s)) / 3) /\
   errorColor (derive NS s) = interpolateColor (errorRatio (derive NS s)) /\
   0 <= errorRatio (derive NS s) <= 1) /\
  (forall t, interpolateColor t =
     ("rgb(" ++ Z_to_string (channel 0x27 0xc0 t) ++ "," ++
      Z_to_string (channel 0xae 0x39 t) ++ "," ++
      Z_to_string (channel 0x60 0x2b t) ++ ")")%string) /\
  (forall a b t, channel a b t =
     Math_round (inject_Z a + t * (inject_Z b - inject_Z a))) /\
  (forall t, 0 <= t <= 1 ->
     (0x27 + t * (0xc0 - 0x27) - (1 # 2) < inject_Z (channel 0x27 0xc0 t) /\
      inject_Z (channel 0x27 0xc0 t) <= 0x27 + t * (0xc0 - 0x27) + (1 # 2)) /\
     (0 <= channel 0x27 0xc0 t <= 255)%Z) /\
  (forall t, 0 <= t <= 1 ->
     (0xae + t * (0x39 - 0xae) - (1 # 2) < inject_Z (channel 0xae 0x39 t) /\
      inject_Z (channel 0xae 0x39 t) <= 0xae + t * (0x39 - 0xae) + (1 # 2)) /\
     (0 <= channel 0xae 0x39 t <= 255)%Z) /\
  (forall t, 0 <= t <= 1 ->
     (0x60 + t * (0x2b - 0x60) - (1 # 2) < inject_Z (channel 0x60 0x2b t) /\
      inject_Z (channel 0x60 0x2b t) <= 0x60 + t * (0x2b - 0x60) + (1 # 2)) /\
     (0 <= channel 0x60 0x2b t <= 255)%Z) /\
  interpolateColor 0 = "rgb(39,174,96)"%string /\
  interpolateColor 1 = "rgb(192,57,43)"%string.
Proof.
  split; [|split; [|split; [|split; [|split; [|split]]]]].
  - intros NS s; split; [reflexivity | split; [reflexivity | apply errorRatio_unit]].
  - reflexivity.
  - reflexivity.
  - channel_bounds.
  - channel_bounds.
  - channel_bounds.
  - split; vm_compute; reflexivity.
Qed.

(** ** Secant slope *)

Lemma difference_quotient_at_2 (d : Q) :
  ~ d == 0 -> (f (2 + d) - f 2) / d == 2 + d.
Proof. intro Hd; unfold f; field; exact Hd. Qed.

Lemma slope_sek_init (NS : Q -> string) (d : Q) :
  slope_sek (derive NS (set_deltaX d init)) = (f (2 + d) - f 2) / d.
Proof. reflexivity. Qed.

Lemma slope_tan_init (NS : Q -> string) (d : Q) :
  slope_tan (derive NS (set_deltaX d init)) = df 2.
Proof. reflexivity. Qed.

Lemma approximation_error_init (NS : Q -> string) (d : Q) :
  0 < d ->
  Math_abs (slope_sek (derive NS (set_deltaX d init)) -
            slope_tan (derive NS (set_deltaX d init))) == d.
Proof.
  intro Hd; rewrite slope_sek_init, slope_tan_init; unfold Math_abs.
  rewrite difference_quotient_at_2 by (intro E; rewrite E in Hd; discriminate).
  unfold df; setoid_replace (2 + d - (2 * 2 - 2)) with d by ring.
  apply Qabs_pos; lra.
Qed.

(** C1: at x0 = 2 (the initial x0), the tangent slope is f'(2) = 2, the secant
    slope is 2 + deltaX and the approximation error |slope_sek - slope_tan| is
    deltaX; so the error decreases strictly with deltaX on (0, 2] and tends
    to 0 as deltaX -> 0+.  At deltaX = 1 the slope is (f 3 - f 2) / 1 =
    (6 - 3) / 1 = 3 with error 1 (displayed 1.0000); at deltaX = 0.01 the
    slope is 2.01 (displayed 2.0100) with error 0.01 (displayed 0.0100). *)
Theorem secant_error_converges (NS : Q -> string) :
  let D d := derive NS (set_deltaX d init) in
  let err d := Math_abs (slope_sek (D d) - slope_tan (D d)) in
  x0 init = 2 /\ df 2 == 2 /\
  (forall d, 0 < d -> slope_sek (D d) == 2 + d) /\
  (forall d, 0 < d -> err d == d) /\
  (forall d1 d2, 0 < d1 -> d1 < d2 -> d2 <= 2 -> err d1 < err d2) /\
  (forall eps, 0 < eps -> exists delta, 0 < delta /\
     forall d, 0 < d -> d < delta -> err d < eps) /\
  f 3 == 6 /\ f 2 == 3 /\
  slope_sek (D 1) == (f 3 - f 2) / 1 /\ slope_sek (D 1) == 3 /\
  err 1 == 1 /\ errorDisplay (D 1) = "1.0000"%string /\
  slope_sek (D (1 # 100)) == (201 # 100) /\
  slopeDisplay (D (1 # 100)) = "2.0100"%string /\
  err (1 # 100) == (1 # 100) /\
  errorDisplay (D (1 # 100)) = "0.0100"%string.
Proof.
  intros D err.
  assert (Herr : forall d, 0 < d -> err d == d)
    by (intros d Hd; apply approximation_error_init, Hd).
  split; [reflexivity|]. split; [reflexivity|].
  split.
  { intros d Hd; unfold D; rewrite slope_sek_init.
    apply difference_quotient_at_2; intro E; rewrite E in Hd; discriminate. }
  split; [exact Herr|].
  split.
  { intros d1 d2 H1 H2 H3; rewrite (Herr d1 H1), (Herr d2 ltac:(lra)); exact H2. }
  split.
  { intros eps Heps; exists eps; split; [exact Heps|].
    intros d Hd Hlt; rewrite (Herr d Hd); exact Hlt. }
  repeat split; vm_compute; reflexivity.
Qed.

(** C2: for every deltaX in [0.01, 2.0] (x0 = 2) the secant slope is the
    difference quotient (f(x0 + deltaX) - f(x0)) / deltaX with a nonzero
    divisor, so the division is a real one (slope * deltaX recovers the
    numerator), and the slope is a finite number in [2.01, 4]. *)
Theorem slope_sek_defined (NS : Q -> string) (d : Q) :
  DX_MIN <= d <= DX_MAX ->
  let D := derive NS (set_deltaX d init) in
  ~ d == 0 /\
  slope_sek D = (f (x0 init + d) - f (x0 init)) / d /\
  slope_sek D * d == f (x0 init + d) - f (x0 init) /\
  (201 # 100) <= slope_sek D <= 4.
Proof.
  unfold DX_MIN, DX_MAX; intros [Hlo Hhi]; cbv zeta.
  assert (Hd : ~ d == 0) by (intro E; lra).
  split; [exact Hd|]. split; [reflexivity|].
  rewrite slope_sek_init; split.
  - simpl x0; field; exact Hd.
  - rewrite difference_quotient_at_2 by exact Hd; lra.
Qed.

Lemma slope_sek_defined_witness :
  (DX_MIN <= 1 <= DX_MAX) /\
  let D := derive (fun _ => EmptyString) (set_deltaX 1 init) in
  ~ 1 == 0 /\
  slope_sek D = (f (x0 init + 1) - f (x0 init)) / 1 /\
  slope_sek D * 1 == f (x0 init + 1) - f (x0 init) /\
  (201 # 100) <= slope_sek D <= 4.
Proof.
  split.
  - split; vm_compute; discriminate.
  - apply (slope_sek_defined (fun _ => EmptyString) 1).
    split; vm_compute; discriminate.
Defined.

(** ** Curve sampler *)

(** The mapped (drawX, drawY) pairs of makeLine, before they are printed. *)
Definition samplePoints (xArr : list Q) (fn : Q -> Q) : list (Q * Q) :=
  map (fun x => (toSvgX x, toSvgY (fn x))) xArr.

Definition showPoint (NS : Q -> string) (p : Q * Q) : string :=
  (NS (fst p) ++ "," ++ NS (snd p))%string.

Lemma makeLine_samplePoints (NS : Q -> string) (xArr : list Q) (fn : Q -> Q) :
  makeLine NS xArr fn = join " " (map (showPoint NS) (samplePoints xArr fn)).
Proof. unfold makeLine, samplePoints; rewrite map_map; reflexivity. Qed.

Lemma nth_map_lt {A B : Type} (g : A -> B) (l : list A) (d : B) (d' : A) (n : nat) :
  (n < List.length l)%nat -> nth n (map g l) d = g (nth n l d').
Proof.
  intro Hn; rewrite nth_indep with (d' := g d') by (rewrite length_map; exact Hn).
  apply map_nth.
Qed.

Lemma nth_xs (i : nat) :
  (i < 300)%nat ->
  nth i xs 0 = xMin + inject_Z (Z.of_nat i) * (xMax - xMin) / 299.
Proof.
  intro Hi; unfold xs; rewrite (nth_map_lt _ _ _ 0%nat) by (rewrite length_seq; exact Hi).
  rewrite seq_nth by exact Hi; reflexivity.
Qed.

Lemma nth_samplePoints (xArr : list Q) (fn : Q -> Q) (i : nat) :
  (i < List.length xArr)%nat ->
  nth i (samplePoints xArr fn) (0, 0) =
  (toSvgX (nth i xArr 0), toSvgY (fn (nth i xArr 0))).
Proof.
  intro Hi; unfold samplePoints.
  apply (nth_map_lt (fun x => (toSvgX x, toSvgY (fn x)))), Hi.
Qed.

(** C4: xs holds the 300 values x_i = xMin + i * (xMax - xMin) / 299, from 0 to
    4 with constant spacing 4/299; makeLine maps any function g over its x
    array to the pairs (toSvgX x_i, toSvgY (g x_i)) in the order of the array
    (printed "drawX,drawY" and joined with spaces); the function, secant and
    tangent curves all sample the whole of xs, secant and tangent with
    g x = f x0 + slope * (x - x0). *)
Theorem curve_sampler_spec (NS : Q -> string) :
  List.length xs = 300%nat /\
  (forall i, (i < 300)%nat ->
     nth i xs 0 = xMin + inject_Z (Z.of_nat i) * (xMax - xMin) / 299) /\
  nth 0 xs 0 == 0 /\ nth 299 xs 0 == 4 /\
  (forall i, (i < 299)%nat -> nth (S i) xs 0 - nth i xs 0 == (xMax - xMin) / 299) /\
  (forall xArr g,
     makeLine NS xArr g = join " " (map (showPoint NS) (samplePoints xArr g)) /\
     List.length (samplePoints xArr g) = List.length xArr /\
     (forall i, (i < List.length xArr)%nat ->
        nth i (samplePoints xArr g) (0, 0) =
        (toSvgX (nth i xArr 0), toSvgY (g (nth i xArr 0))))) /\
  (forall s,
     funcPoints (derive NS s) = makeLine NS xs f /\
     sekantePoints (derive NS s) =
       makeLine NS xs (fun x => f (x0 s) + slope_sek (derive NS s) * (x - x0 s)) /\
     tangentePoints (derive NS s) =
       makeLine NS xs (fun x => f (x0 s) + slope_tan (derive NS s) * (x - x0 s))).
Proof.
  split; [reflexivity|].
  split; [exact nth_xs|].
  split; [reflexivity|]. split; [reflexivity|].
  split.
  { intros i Hi; rewrite !nth_xs by lia.
    rewrite Nat2Z.inj_succ, <- Z.add_1_r, inject_Z_plus.
    unfold xMin, xMax; change (inject_Z 1) with 1; field. }
  split.
  { intros xArr g; split; [apply makeLine_samplePoints|].
    split; [unfold samplePoints; apply length_map | apply nth_samplePoints]. }
  intro s; repeat split.
Qed.

(** ** Tick generation *)

Lemma Qle_bool_compat (a a' b b' : Q) :
  a == a' -> b == b' -> Qle_bool a b = Qle_bool a' b'.
Proof.
  intros Ha Hb; apply Bool.eq_iff_eq_true; rewrite !Qle_bool_iff, Ha, Hb; reflexivity.
Qed.

Lemma Qlt_bool_compat (a a' b b' : Q) :
  a == a' -> b == b' -> Qlt_bool a b = Qlt_bool a' b'.
Proof. intros Ha Hb; unfold Qlt_bool; rewrite (Qle_bool_compat _ _ _ _ Hb Ha); reflexivity. Qed.

Lemma toFixed_int_compat (x y : Q) (k : nat) :
  x == y -> toFixed_int x k = toFixed_int y k.
Proof. intro H; unfold toFixed_int; apply Qfloor_comp; rewrite H; reflexivity. Qed.

Lemma plus_toFixed_compat (v w : Q) (k : nat) :
  v == w -> plus_toFixed v k = plus_toFixed w k.
Proof.
  intro H; unfold plus_toFixed.
  rewrite (Qle_bool_compat _ _ _ _ (Qeq_refl _) (Qabs_wd _ _ H)).
  destruct (Qle_bool _ (Qabs w)); [apply Qred_complete, H|].
  rewrite (toFixed_int_compat _ _ _ (Qabs_wd _ _ H)),
          (Qlt_bool_compat _ _ _ _ H (Qeq_refl _)).
  reflexivity.
Qed.

Lemma ticks_loop_compat (max step v : Q) (r : list Q) :
  ticks_loop max step v r -> forall w, v == w -> ticks_loop max step w r.
Proof.
  induction 1 as [v Hv | v r Hv _ IH]; intros w Hw.
  - apply ticks_exit; rewrite <- Hw; exact Hv.
  - rewrite (plus_toFixed_compat _ _ _ Hw); apply ticks_push.
    + rewrite <- Hw; exact Hv.
    + apply IH; rewrite Hw; reflexivity.
Qed.

Lemma ticks_loop_det (max step v : Q) (r1 r2 : list Q) :
  ticks_loop max step v r1 -> ticks_loop max step v r2 -> r1 = r2.
Proof.
  intro H1; revert r2; induction H1 as [v Hv | v r Hv _ IH]; intros r2 H2;
    inversion H2; subst; try contradiction.
  - reflexivity.
  - f_equal; apply IH; assumption.
Qed.

Lemma ticks_run_sound (fuel : nat) (max step v : Q) (r : list Q) :
  ticks_run fuel max step v = Some r -> ticks_loop max step v r.
Proof.
  revert v r; induction fuel as [|fuel IH]; intros v r H; simpl in H; [discriminate|].
  destruct (Qle_bool v (max + ticks_eps)) eqn:E.
  - destruct (ticks_run fuel max step (v + step)) eqn:E2; [|discriminate].
    injection H as <-; apply ticks_push; [apply Qle_bool_iff, E | apply IH, E2].
  - injection H as <-; apply ticks_exit; intro Hle; apply Qle_bool_iff in Hle; congruence.
Qed.

(** The k-th value of v in the loop, min + k * step. *)
Definition tick_value (v step : Q) (k : nat) : Q := v + inject_Z (Z.of_nat k) * step.

Lemma tick_value_0 (v step : Q) : tick_value v step 0 == v.
Proof. unfold tick_value; simpl; ring. Qed.

Lemma tick_value_S (v step : Q) (k : nat) :
  tick_value v step (S k) == tick_value (v + step) step k.
Proof.
  unfold tick_value; rewrite Nat2Z.inj_succ, <- Z.add_1_r, inject_Z_plus.
  change (inject_Z 1) with 1; ring.
Qed.

Lemma ticks_map_shift (v step : Q) (n : nat) :
  map (fun k => plus_toFixed (tick_value v step k) 6) (seq 1 n) =
  map (fun k => plus_toFixed (tick_value (v + step) step k) 6) (seq 0 n).
Proof.
  rewrite <- seq_shift, map_map; apply map_ext; intro k.
  apply plus_toFixed_compat, tick_value_S.
Qed.

Lemma ticks_loop_iff (max step v : Q) (r : list Q) :
  ticks_loop max step v r <->
  exists n, r = map (fun k => plus_toFixed (tick_value v step k) 6) (seq 0 n) /\
    (forall k, (k < n)%nat -> tick_value v step k <= max + ticks_eps) /\
    ~ (tick_value v step n <= max + ticks_eps).
Proof.
  split.
  - induction 1 as [v Hv | v r Hv _ IH].
    + exists 0%nat; split; [reflexivity|]; split; [intros k Hk; lia|].
      rewrite tick_value_0; exact Hv.
    + destruct IH as [n [Hr [Hin Hout]]]; exists (S n); split; [|split].
      * simpl seq; cbn [map]; rewrite ticks_map_shift, <- Hr.
        rewrite (plus_toFixed_compat _ _ _ (tick_value_0 v step)); reflexivity.
      * intros [|k] Hk; [rewrite tick_value_0; exact Hv|].
        rewrite tick_value_S; apply Hin; lia.
      * rewrite tick_value_S; exact Hout.
  - intros [n [Hr [Hin Hout]]]; revert v r Hr Hin Hout.
    induction n as [|n IH]; intros v r Hr Hin Hout; subst r.
    + apply ticks_exit; rewrite <- (tick_value_0 v step); exact Hout.
    + simpl seq; cbn [map]; rewrite ticks_map_shift.
      rewrite (plus_toFixed_compat _ _ _ (tick_value_0 v step)).
      apply ticks_push.
      * rewrite <- (tick_value_0 v step); apply Hin; lia.
      * apply IH; [reflexivity | |].
        -- intros k Hk; rewrite <- tick_value_S; apply Hin; lia.
        -- rewrite <- tick_value_S; exact Hout.
Qed.

(** For a positive step the loop terminates. *)
Lemma ticks_loop_terminates (max step v : Q) :
  0 < step -> exists r, ticks_loop max step v r.
Proof.
  intro Hs.
  assert (Hm : forall m w, max + ticks_eps - w < inject_Z (Z.of_nat m) * step ->
                           exists r, ticks_loop max step w r).
  { induction m as [|m IH]; intros w Hw.
    - exists []; apply ticks_exit; intro Hle.
      change (inject_Z (Z.of_nat 0)) with 0 in Hw; lra.
    - destruct (Qlt_le_dec (max + ticks_eps) w) as [Hlt|Hle].
      + exists []; apply ticks_exit; intro Hle; lra.
      + destruct (IH (w + step)) as [r Hr].
        { rewrite Nat2Z.inj_succ, <- Z.add_1_r, inject_Z_plus, Qmult_plus_distr_l in Hw.
          change (inject_Z 1) with 1 in Hw; lra. }
        exists (plus_toFixed w 6 :: r); apply ticks_push; assumption. }
  apply (Hm (Z.to_nat (Qfloor ((max + ticks_eps - v) / step)) + 1)%nat).
  set (z := Qfloor ((max + ticks_eps - v) / step)).
  assert (Hz : inject_Z (z + 1) <= inject_Z (Z.of_nat (Z.to_nat z + 1))).
  { rewrite <- Zle_Qle; lia. }
  assert (Hq : (max + ticks_eps - v) / step < inject_Z (z + 1)) by apply Qlt_floor.
  setoid_replace (max + ticks_eps - v) with ((max + ticks_eps - v) / step * step)
    by (field; intro E; rewrite E in Hs; discriminate).
  apply Qmult_lt_r; [exact Hs|].
  apply Qlt_le_trans with (1 := Hq); exact Hz.
Qed.

(** +(v.toFixed(6)) is within half a millionth of v. *)
Lemma plus_toFixed_6_close (v : Q) :
  Qabs v < inject_Z (10 ^ 21) -> Qabs (plus_toFixed v 6 - v) <= (1 # 2000000).
Proof.
  intro Hv; unfold plus_toFixed.
  destruct (Qle_bool (inject_Z (10 ^ 21)) (Qabs v)) eqn:E.
  { apply Qle_bool_iff in E; exfalso; apply (Qlt_not_le _ _ Hv E). }
  pose proof (Qfloor_bounds (Qabs v * inject_Z (10 ^ Z.of_nat 6) + (1 # 2))) as [H1 H2].
  fold (toFixed_int (Qabs v) 6) in H1, H2.
  set (n := toFixed_int (Qabs v) 6) in *.
  rewrite inject_Z_plus in H2; change (inject_Z 1) with 1 in H2.
  change (inject_Z (10 ^ Z.of_nat 6)) with 1000000 in *.
  assert (Hq : Qred (inject_Z n / 1000000) == inject_Z n * (1 # 1000000))
    by (rewrite Qred_correct; reflexivity).
  apply Qabs_Qle_condition.
  destruct (Qlt_bool v 0) eqn:Hneg.
  - apply Qlt_bool_iff in Hneg; rewrite Qabs_neg in H1, H2 by lra.
    rewrite Qred_correct, Hq; split; lra.
  - assert (H0 : 0 <= v).
    { apply Qnot_lt_le; intro Hlt; apply Qlt_bool_iff in Hlt; congruence. }
    rewrite Qabs_pos in H1, H2 by exact H0.
    rewrite Hq; split; lra.
Qed.

(** C6: for a positive step, ticks(min, max, step) terminates and pushes
    exactly the values min + k * step, k = 0, 1, ..., while they are
    <= max + 1e-9 (the epsilon lets a value that overshoots max by at most
    1e-9 in), each passed through +v.toFixed(6), i.e. rounded to 6 decimal
    places; ticks(0, 4, 0.5) is [0, 0.5, 1, 1.5, 2, 2.5, 3, 3.5, 4] (9 values)
    and ticks(0, 9, 1) has 10 values. *)
Theorem ticks_spec :
  (forall min max step, 0 < step ->
     (exists r, ticks min max step r) /\
     (forall r, ticks min max step r <->
        exists n, r = map (fun k => plus_toFixed (min + inject_Z (Z.of_nat k) * step) 6)
                          (seq 0 n) /\
          (forall k, (k < n)%nat ->
             min + inject_Z (Z.of_nat k) * step <= max + (1 # 1000000000)) /\
          max + (1 # 1000000000) < min + inject_Z (Z.of_nat n) * step)) /\
  (forall v, Qabs v < inject_Z (10 ^ 21) -> Qabs (plus_toFixed v 6 - v) <= (1 # 2000000)) /\
  ticks 0 4 (1 # 2) [0; 1 # 2; 1; 3 # 2; 2; 5 # 2; 3; 7 # 2; 4] /\
  (forall r, ticks 0 4 (1 # 2) r -> r = [0; 1 # 2; 1; 3 # 2; 2; 5 # 2; 3; 7 # 2; 4]) /\
  List.length [0; 1 # 2; 1; 3 # 2; 2; 5 # 2; 3; 7 # 2; 4] = 9%nat /\
  (exists r, ticks 0 9 1 r) /\
  (forall r, ticks 0 9 1 r -> List.length r = 10%nat).
Proof.
  assert (H04 : ticks 0 4 (1 # 2) [0; 1 # 2; 1; 3 # 2; 2; 5 # 2; 3; 7 # 2; 4])
    by (apply (ticks_run_sound 20); vm_compute; reflexivity).
  assert (H09 : ticks 0 9 1 [0; 1; 2; 3; 4; 5; 6; 7; 8; 9])
    by (apply (ticks_run_sound 20); vm_compute; reflexivity).
  split; [|split; [exact plus_toFixed_6_close|split; [exact H04|split; [|split; [reflexivity|split]]]]].
  - intros min max step Hs; split; [apply ticks_loop_terminates, Hs|].
    intro r; unfold ticks; rewrite ticks_loop_iff; unfold tick_value, ticks_eps.
    split; intros [n [Hr [Hin Hout]]]; exists n; split; [exact Hr| |exact Hr|];
      (split; [exact Hin|]).
    + apply Qnot_le_lt, Hout.
    + apply Qlt_not_le, Hout.
  - intros r Hr; exact (ticks_loop_det _ _ _ _ _ Hr H04).
  - exists [0; 1; 2; 3; 4; 5; 6; 7; 8; 9]; exact H09.
  - intros r Hr; rewrite (ticks_loop_det _ _ _ _ _ Hr H09); reflexivity.
Qed.

(** ** The range of deltaX *)

Lemma range_value_bounds (raw : Q) :
  DX_MIN <= range_value DX_MIN DX_MAX DX_STEP raw <= DX_MAX.
Proof.
  unfold range_value.
  set (c := if Qlt_bool raw DX_MIN then DX_MIN
            else if Qlt_bool DX_MAX raw then DX_MAX else raw).
  assert (Hc : DX_MIN <= c <= DX_MAX).
  { unfold c; destruct (Qlt_bool raw DX_MIN) eqn:E1;
      [unfold DX_MIN, DX_MAX; split; discriminate|].
    destruct (Qlt_bool DX_MAX raw) eqn:E2; [unfold DX_MIN, DX_MAX; split; discriminate|].
    split; apply Qnot_lt_le; intro H; apply Qlt_bool_iff in H; congruence. }
  destruct (Qfloor_bounds ((c - DX_MIN) / DX_STEP + (1 # 2))) as [H1 H2].
  set (k := Qfloor ((c - DX_MIN) / DX_STEP + (1 # 2))) in *.
  rewrite inject_Z_plus in H2; change (inject_Z 1) with 1 in H2.
  unfold DX_STEP, Qdiv in H1, H2; change (/ (1 # 100)) with 100 in H1, H2.
  unfold DX_MIN, DX_MAX in Hc, H1, H2 |- *; unfold DX_STEP.
  assert (Hk : 0 <= inject_Z k).
  { assert (H : inject_Z (-1) < inject_Z k)
      by (change (inject_Z (-1)) with (-1); lra).
    rewrite <- Zlt_Qlt in H; change 0 with (inject_Z 0); rewrite <- Zle_Qle; lia. }
  destruct (Qlt_bool 2 ((1 # 100) + inject_Z k * (1 # 100))) eqn:E.
  - apply Qlt_bool_iff in E.
    unfold Z.sub; rewrite inject_Z_plus, inject_Z_opp; change (inject_Z 1) with 1.
    split; lra.
  - assert (Hle : (1 # 100) + inject_Z k * (1 # 100) <= 2).
    { apply Qnot_lt_le; intro H; apply Qlt_bool_iff in H; congruence. }
    split; lra.
Qed.

Lemma presets_in_range : Forall (fun p => DX_MIN <= p <= DX_MAX) presets.
Proof. repeat constructor; discriminate. Qed.

Lemma step_deltaX (s s' : State) :
  step s s' ->
  x0 s' = x0 s /\
  ((exists raw, deltaX s' = range_value DX_MIN DX_MAX DX_STEP raw) \/
   In (deltaX s') presets).
Proof.
  intros [s0 raw | s0 p Hp]; split; try reflexivity.
  - left; exists raw; reflexivity.
  - right; exact Hp.
Qed.

(** C8: deltaX starts at 1.5; the slider has min 0.01, max 2.0, step 0.01 and
    only yields values in [0.01, 2.0]; the five presets lie in [0.01, 2.0];
    the two user events are the only transitions, each assigns deltaX only;
    hence deltaX lies in [0.01, 2.0] in every reachable state. *)
Theorem deltaX_invariant (s : State) :
  reachable s ->
  DX_MIN <= deltaX s <= DX_MAX /\
  deltaX init = 3 # 2 /\ DX_MIN = 1 # 100 /\ DX_MAX = 2 /\ DX_STEP = 1 # 100 /\
  (forall raw, DX_MIN <= range_value DX_MIN DX_MAX DX_STEP raw <= DX_MAX) /\
  presets = [2; 1; 1 # 2; 1 # 10; 1 # 100] /\
  Forall (fun p => DX_MIN <= p <= DX_MAX) presets /\
  (forall s1 s2, step s1 s2 -> x0 s2 = x0 s1 /\
     ((exists raw, deltaX s2 = range_value DX_MIN DX_MAX DX_STEP raw) \/
      In (deltaX s2) presets)).
Proof.
  intro Hr; split.
  - induction Hr as [|s s' _ IH Hst].
    + unfold DX_MIN, DX_MAX; simpl; split; discriminate.
    + destruct Hst as [s0 raw | s0 p Hp]; simpl.
      * apply range_value_bounds.
      * exact (proj1 (Forall_forall _ presets) presets_in_range p Hp).
  - do 4 (split; [reflexivity|]).
    split; [apply range_value_bounds|].
    split; [reflexivity|].
    split; [exact presets_in_range|].
    exact step_deltaX.
Qed.

Lemma deltaX_invariant_witness :
  reachable init /\
  (DX_MIN <= deltaX init <= DX_MAX /\
  deltaX init = 3 # 2 /\ DX_MIN = 1 # 100 /\ DX_MAX = 2 /\ DX_STEP = 1 # 100 /\
  (forall raw, DX_MIN <= range_value DX_MIN DX_MAX DX_STEP raw <= DX_MAX) /\
  presets = [2; 1; 1 # 2; 1 # 10; 1 # 100] /\
  Forall (fun p => DX_MIN <= p <= DX_MAX) presets /\
  (forall s1 s2, step s1 s2 -> x0 s2 = x0 s1 /\
     ((exists raw, deltaX s2 = range_value DX_MIN DX_MAX DX_STEP raw) \/
      In (deltaX s2) presets))).
Proof. split; [apply reach_init | apply (deltaX_invariant init reach_init)]. Defined.

(** ** Recomputation *)

(** C9: assigning the same deltaX twice gives the state, hence the derived
    values and point strings, of assigning it once; the derived values are a
    function of (x0, deltaX) alone (the viewport being constant). *)
Theorem set_deltaX_idempotent (NS : Q -> string) (v : Q) (s : State) :
  set_deltaX v (set_deltaX v s) = set_deltaX v s /\
  derive NS (set_deltaX v (set_deltaX v s)) = derive NS (set_deltaX v s) /\
  (forall s1 s2, deltaX s1 = deltaX s2 -> x0 s1 = x0 s2 ->
     derive NS s1 = derive NS s2).
Proof.
  split; [reflexivity|]. split; [reflexivity|].
  intros [d1 a1] [d2 a2]; simpl; intros -> ->; reflexivity.
Qed.

(** C10: an assignment to deltaX leaves funcPoints, slope_tan = f'(x0),
    tangentePoints and px0 = (toSvgX x0, toSvgY (f x0)) unchanged. *)
Theorem deltaX_frame (NS : Q -> string) (v : Q) (s : State) :
  let D := derive NS s in
  let D' := derive NS (set_deltaX v s) in
  x0 (set_deltaX v s) = x0 s /\
  funcPoints D' = funcPoints D /\ funcPoints D = makeLine NS xs f /\
  slope_tan D' = slope_tan D /\ slope_tan D = df (x0 s) /\
  tangentePoints D' = tangentePoints D /\
  px0 D' = px0 D /\ px0 D = {| px := toSvgX (x0 s); py := toSvgY (f (x0 s)) |}.
Proof. repeat split. Qed.

(* ========================================================================= *)
(** * Further properties of the component *)

(** ** Secant and tangent lines *)

(** The secant and tangent as functions of x, as handed to makeLine. *)
Definition secant_fn (s : State) (slope : Q) (x : Q) : Q := f (x0 s) + slope * (x - x0 s).

(** For every x0 (not only 2) and every nonzero deltaX, the difference
    quotient of f is f'(x0) + deltaX, so the approximation error is |deltaX|. *)
Theorem slope_sek_any_x0 (NS : Q -> string) (s : State) :
  ~ deltaX s == 0 ->
  slope_sek (derive NS s) == df (x0 s) + deltaX s /\
  Math_abs (slope_sek (derive NS s) - slope_tan (derive NS s)) == Qabs (deltaX s).
Proof.
  destruct s as [d a]; cbn [derive deltaX x0 slope_sek slope_tan px0 px1 px py]; intro Hd.
  assert (H : (f (a + d) - f a) / d == df a + d) by (unfold f, df; field; exact Hd).
  split; [exact H|]. unfold Math_abs; rewrite H.
  apply Qabs_wd; ring.
Qed.

Lemma slope_sek_any_x0_witness :
  ~ deltaX init == 0 /\
  slope_sek (derive (fun _ => EmptyString) init) == df (x0 init) + deltaX init /\
  Math_abs (slope_sek (derive (fun _ => EmptyString) init) -
            slope_tan (derive (fun _ => EmptyString) init)) == Qabs (deltaX init).
Proof.
  split; [vm_compute; discriminate|].
  apply (slope_sek_any_x0 (fun _ => EmptyString) init); vm_compute; discriminate.
Defined.

(** The drawn secant passes through both markers: the function sampled for
    sekantePoints takes the value f(x0) at x0 and f(x0 + deltaX) at
    x0 + deltaX, so its drawn points there are px0 and px1. *)
Theorem secant_through_markers (NS : Q -> string) (s : State) :
  ~ deltaX s == 0 ->
  let D := derive NS s in
  secant_fn s (slope_sek D) (x0 s) == f (x0 s) /\
  secant_fn s (slope_sek D) (x0 s + deltaX s) == f (x0 s + deltaX s) /\
  toSvgX (x0 s) = px (px0 D) /\
  toSvgY (secant_fn s (slope_sek D) (x0 s)) == py (px0 D) /\
  toSvgX (x0 s + deltaX s) = px (px1 D) /\
  toSvgY (secant_fn s (slope_sek D) (x0 s + deltaX s)) == py (px1 D).
Proof.
  destruct s as [d a]; cbn [derive deltaX x0 slope_sek slope_tan px0 px1 px py]; intro Hd.
  assert (H0 : secant_fn {| deltaX := d; x0 := a |} ((f (a + d) - f a) / d) a == f a)
    by (unfold secant_fn; simpl; ring).
  assert (H1 : secant_fn {| deltaX := d; x0 := a |} ((f (a + d) - f a) / d) (a + d)
               == f (a + d))
    by (unfold secant_fn; simpl; field; exact Hd).
  split; [exact H0|]. split; [exact H1|].
  split; [reflexivity|]. split; [rewrite !toSvgY_affine, H0; reflexivity|].
  split; [reflexivity|]. rewrite !toSvgY_affine, H1; reflexivity.
Qed.

Lemma secant_through_markers_witness :
  ~ deltaX init == 0 /\
  let D := derive (fun _ => EmptyString) init in
  secant_fn init (slope_sek D) (x0 init) == f (x0 init) /\
  secant_fn init (slope_sek D) (x0 init + deltaX init) == f (x0 init + deltaX init) /\
  toSvgX (x0 init) = px (px0 D) /\
  toSvgY (secant_fn init (slope_sek D) (x0 init)) == py (px0 D) /\
  toSvgX (x0 init + deltaX init) = px (px1 D) /\
  toSvgY (secant_fn init (slope_sek D) (x0 init + deltaX init)) == py (px1 D).
Proof.
  split; [vm_compute; discriminate|].
  apply (secant_through_markers (fun _ => EmptyString) init); vm_compute; discriminate.
Defined.

(** The tangent touches the parabola at x0 and lies below it everywhere
    else: f(x) - tangent(x) = (x - x0)^2. *)
Theorem tangent_below_curve (NS : Q -> string) (s : State) (x : Q) :
  f x - secant_fn s (slope_tan (derive NS s)) x == (x - x0 s) * (x - x0 s) /\
  secant_fn s (slope_tan (derive NS s)) x <= f x /\
  (secant_fn s (slope_tan (derive NS s)) x == f x <-> x == x0 s).
Proof.
  assert (H : f x - secant_fn s (slope_tan (derive NS s)) x == (x - x0 s) * (x - x0 s))
    by (unfold secant_fn; cbn [derive slope_tan]; unfold f, df; ring).
  split; [exact H|]. split.
  - assert (Hsq : 0 <= (x - x0 s) * (x - x0 s)).
    { destruct (Qlt_le_dec (x - x0 s) 0) as [Hn|Hp].
      - setoid_replace ((x - x0 s) * (x - x0 s)) with ((x0 s - x) * (x0 s - x)) by ring.
        apply Qmult_le_0_compat; lra.
      - apply Qmult_le_0_compat; exact Hp. }
    lra.
  - split; intro E.
    + assert (Hz : (x - x0 s) * (x - x0 s) == 0) by lra.
      destruct (Qeq_dec (x - x0 s) 0) as [Hz'|Hz']; [lra|].
      exfalso; apply Hz'; apply Qmult_integral in Hz; destruct Hz; assumption.
    + assert (Hz : (x - x0 s) * (x - x0 s) == 0) by (rewrite E; ring). lra.
Qed.

(** For a nonzero deltaX the sampled secant and tangent meet only at x0. *)
Theorem secant_tangent_meet_at_x0 (NS : Q -> string) (s : State) (x : Q) :
  ~ deltaX s == 0 ->
  (secant_fn s (slope_sek (derive NS s)) x == secant_fn s (slope_tan (derive NS s)) x
   <-> x == x0 s).
Proof.
  intro Hd; destruct (slope_sek_any_x0 NS s Hd) as [Hs _].
  unfold secant_fn; rewrite Hs; cbn [derive slope_tan]; split; intro E.
  - assert (Hm : deltaX s * (x - x0 s) == 0) by lra.
    apply Qmult_integral in Hm; destruct Hm as [Hm|Hm]; [contradiction | lra].
  - rewrite E; ring.
Qed.

Lemma secant_tangent_meet_at_x0_witness :
  ~ deltaX init == 0 /\
  (secant_fn init (slope_sek (derive (fun _ => EmptyString) init)) 2 ==
   secant_fn init (slope_tan (derive (fun _ => EmptyString) init)) 2 <-> 2 == x0 init).
Proof.
  split; [vm_compute; discriminate|].
  apply (secant_tangent_meet_at_x0 (fun _ => EmptyString) init 2); vm_compute; discriminate.
Defined.

(** ** Reachable states *)

Lemma reachable_shape (s : State) :
  reachable s -> x0 s = 2 /\ DX_MIN <= deltaX s <= DX_MAX.
Proof.
  intro Hr; split; [|exact (proj1 (deltaX_invariant s Hr))].
  induction Hr as [|s s' _ IH Hst]; [reflexivity|].
  rewrite (proj1 (step_deltaX s s' Hst)); exact IH.
Qed.

(** In every reachable state the error ratio is deltaX / 3 <= 2/3: the
    Math.min(1, ...) never clips, the error color never reaches the
    "large error" end. *)
Theorem errorRatio_reachable (NS : Q -> string) (s : State) :
  reachable s ->
  errorRatio (derive NS s) == deltaX s / 3 /\ errorRatio (derive NS s) <= (2 # 3).
Proof.
  intro Hr; destruct (reachable_shape s Hr) as [Hx [Hlo Hhi]].
  destruct s as [d a]; cbn [x0 deltaX] in *; subst a.
  unfold DX_MIN, DX_MAX in Hlo, Hhi.
  assert (Hd : ~ d == 0) by (intro E; lra).
  pose proof (proj2 (slope_sek_any_x0 NS {| deltaX := d; x0 := 2 |} Hd)) as He.
  cbn [derive errorRatio slope_sek slope_tan deltaX x0] in *.
  set (e := Math_abs _) in *.
  assert (He' : e == d) by (rewrite He; apply Qabs_pos; lra).
  unfold Math_min.
  rewrite (Qle_bool_compat 1 1 (e / 3) (d * (1 # 3)) (Qeq_refl 1))
    by (rewrite He'; reflexivity).
  destruct (Qle_bool 1 (d * (1 # 3))) eqn:E.
  - apply Qle_bool_iff in E; lra.
  - rewrite He'; split; [reflexivity|]. unfold Qdiv; change (/ 3) with (1 # 3); lra.
Qed.

Lemma errorRatio_reachable_witness :
  reachable init /\
  errorRatio (derive (fun _ => EmptyString) init) == deltaX init / 3 /\
  errorRatio (derive (fun _ => EmptyString) init) <= (2 # 3).
Proof. split; [apply reach_init | apply errorRatio_reachable, reach_init]. Defined.





(** ** Shaded interval and the marker P2 *)

Record Rect := { rx : Q; ry : Q; rwidth : Q; rheight : Q }.

(** <rect x={toSvgX(x0)} y={toSvgY(0) - 6}
          width={toSvgX(x0 + deltaX) - toSvgX(x0)} height={12} /> *)
Definition delta_rect (s : State) : Rect :=
  {| rx := toSvgX (x0 s); ry := toSvgY 0 - 6;
     rwidth := toSvgX (x0 s + deltaX s) - toSvgX (x0 s); rheight := 12 |}.

(** <text x={(toSvgX(x0) + toSvgX(x0 + deltaX)) / 2} y={toSvgY(0) - 10}> *)
Definition delta_label_x (s : State) : Q := (toSvgX (x0 s) + toSvgX (x0 s + deltaX s)) / 2.

(** In every reachable state the shaded rectangle spans from P1 to P2 along
    x, has width 525/4 * deltaX in [1.3125, 262.5], is centred on the x-axis
    line and ends at or before the right edge of the plot; the Δx label sits
    at its centre. *)
Theorem delta_rect_reachable (NS : Q -> string) (s : State) :
  reachable s ->
  let R := delta_rect s in
  let D := derive NS s in
  rx R = px (px0 D) /\ rx R + rwidth R == px (px1 D) /\
  rwidth R == (525 # 4) * deltaX s /\
  (105 # 80) <= rwidth R <= (525 # 2) /\
  rx R + rwidth R <= left PAD + plotW /\
  ry R + rheight R / 2 == toSvgY 0 /\
  delta_label_x s == rx R + rwidth R / 2.
Proof.
  intro Hr; destruct (reachable_shape s Hr) as [Hx [Hlo Hhi]].
  destruct s as [d a]; cbn [x0 deltaX] in *; subst a.
  unfold DX_MIN, DX_MAX in Hlo, Hhi.
  unfold delta_rect, delta_label_x; cbn [rx ry rwidth rheight derive px0 px1 px x0 deltaX].
  split; [reflexivity|].
  rewrite !toSvgX_affine.
  split; [ring|].
  split; [ring|].
  split; [split; lra|].
  split; [rewrite plotW_value; cbn [left PAD]; lra|].
  split; [rewrite !toSvgY_affine; unfold Qdiv; change (/ 2) with (1 # 2); ring|].
  unfold Qdiv; change (/ 2) with (1 # 2); ring.
Qed.

Lemma delta_rect_reachable_witness :
  reachable init /\
  let R := delta_rect init in
  let D := derive (fun _ => EmptyString) init in
  rx R = px (px0 D) /\ rx R + rwidth R == px (px1 D) /\
  rwidth R == (525 # 4) * deltaX init /\
  (105 # 80) <= rwidth R <= (525 # 2) /\
  rx R + rwidth R <= left PAD + plotW /\
  ry R + rheight R / 2 == toSvgY 0 /\
  delta_label_x init == rx R + rwidth R / 2.
Proof. split; [apply reach_init | apply (delta_rect_reachable _ init reach_init)]. Defined.

(** In every reachable state P2 lies horizontally inside the plot and never
    below its bottom edge, and it lies inside the plot vertically exactly when
    deltaX^2 + 2 deltaX <= 6 (f(x0 + deltaX) <= yMax = 9); at the preset
    deltaX = 2.0 it is drawn at y = -160/3, above the SVG area. *)
Theorem px1_in_plot_iff (NS : Q -> string) (s : State) :
  reachable s ->
  let P := px1 (derive NS s) in
  left PAD <= px P <= left PAD + plotW /\
  py P <= top PAD + plotH /\
  (top PAD <= py P <-> deltaX s * deltaX s + 2 * deltaX s <= 6) /\
  py (px1 (derive NS (set_deltaX 2 s))) == - (160 # 3).
Proof.
  intro Hr; destruct (reachable_shape s Hr) as [Hx [Hlo Hhi]].
  destruct s as [d a]; cbn [x0 deltaX] in *; subst a.
  unfold DX_MIN, DX_MAX in Hlo, Hhi.
  cbn [derive px1 px py x0 deltaX set_deltaX].
  rewrite toSvgX_affine, toSvgY_affine, plotW_value, plotH_value.
  assert (Hf : f (2 + d) == d * d + 2 * d + 3) by (unfold f; ring).
  rewrite Hf; cbn [left top PAD].
  assert (Hsq : 0 <= d * d) by (apply Qmult_le_0_compat; lra).
  split; [split; lra|]. split; [lra|]. split; [split; intro H; lra|].
  rewrite toSvgY_affine; reflexivity.
Qed.

Lemma px1_in_plot_iff_witness :
  reachable init /\
  let P := px1 (derive (fun _ => EmptyString) init) in
  left PAD <= px P <= left PAD + plotW /\
  py P <= top PAD + plotH /\
  (top PAD <= py P <-> deltaX init * deltaX init + 2 * deltaX init <= 6) /\
  py (px1 (derive (fun _ => EmptyString) (set_deltaX 2 init))) == - (160 # 3).
Proof. split; [apply reach_init | apply (px1_in_plot_iff _ init reach_init)]. Defined.

(** ** Tick values stay in their range *)

(** For a positive step and bounds below 1e20 in magnitude, ticks(min, max,
    step) is empty exactly when min > max + 1e-9, and every pushed value lies
    in [min - 5e-7, max + 1e-9 + 5e-7]. *)
Theorem ticks_bounds (min max step : Q) (r : list Q) :
  0 < step -> Qabs min < inject_Z (10 ^ 20) -> Qabs max < inject_Z (10 ^ 20) ->
  ticks min max step r ->
  (r = [] <-> max + ticks_eps < min) /\
  Forall (fun e => min - (1 # 2000000) <= e <= max + ticks_eps + (1 # 2000000)) r.
Proof.
  intros Hs Hmin Hmax Hr.
  destruct (proj1 (ticks_loop_iff _ _ _ _) Hr) as [n [Hrn [Hin Hout]]].
  split.
  - split.
    + intros ->; destruct n as [|n]; [|discriminate].
      apply Qnot_le_lt; rewrite <- (tick_value_0 min step); exact Hout.
    + intro Hlt; destruct n as [|n]; [exact Hrn|].
      exfalso; specialize (Hin 0%nat ltac:(lia)); rewrite tick_value_0 in Hin; lra.
  - subst r; apply Forall_forall; intros e He.
    apply in_map_iff in He; destruct He as [k [<- Hk]].
    apply in_seq in Hk; specialize (Hin k ltac:(lia)).
    assert (Hv0 : min <= tick_value min step k).
    { unfold tick_value.
      assert (0 <= inject_Z (Z.of_nat k) * step).
      { apply Qmult_le_0_compat; [|lra].
        change 0 with (inject_Z 0); rewrite <- Zle_Qle; lia. }
      lra. }
    assert (Hbig : Qabs (tick_value min step k) < inject_Z (10 ^ 21)).
    { apply Qabs_Qlt_condition.
      apply Qabs_Qlt_condition in Hmin; apply Qabs_Qlt_condition in Hmax.
      change (inject_Z (10 ^ 20)) with 100000000000000000000 in Hmin, Hmax.
      change (inject_Z (10 ^ 21)) with 1000000000000000000000.
      unfold ticks_eps in Hin; split; lra. }
    pose proof (plus_toFixed_6_close _ Hbig) as Hc.
    apply Qabs_Qle_condition in Hc; split; lra.
Qed.

Lemma ticks_bounds_witness :
  (0 < 1 # 2 /\ Qabs 0 < inject_Z (10 ^ 20) /\ Qabs 4 < inject_Z (10 ^ 20) /\
   ticks 0 4 (1 # 2) [0; 1 # 2; 1; 3 # 2; 2; 5 # 2; 3; 7 # 2; 4]) /\
  (([0; 1 # 2; 1; 3 # 2; 2; 5 # 2; 3; 7 # 2; 4] = [] <-> 4 + ticks_eps < 0) /\
   Forall (fun e => 0 - (1 # 2000000) <= e <= 4 + ticks_eps + (1 # 2000000))
          [0; 1 # 2; 1; 3 # 2; 2; 5 # 2; 3; 7 # 2; 4]).
Proof.
  assert (H04 : ticks 0 4 (1 # 2) [0; 1 # 2; 1; 3 # 2; 2; 5 # 2; 3; 7 # 2; 4])
    by (apply (ticks_run_sound 20); vm_compute; reflexivity).
  assert (Hh : 0 < 1 # 2 /\ Qabs 0 < inject_Z (10 ^ 20) /\ Qabs 4 < inject_Z (10 ^ 20))
    by (repeat split; vm_compute; reflexivity).
  destruct Hh as [H1 [H2 H3]].
  split; [repeat split; assumption|].
  apply (ticks_bounds 0 4 (1 # 2) _ H1 H2 H3 H04).
Defined.

(** ** Slider values *)

Lemma grid_index_bounds (z : Z) :
  DX_MIN <= DX_MIN + inject_Z z * DX_STEP <= DX_MAX -> (0 <= z <= 199)%Z.
Proof.
  unfold DX_MIN, DX_MAX, DX_STEP; intros [H1 H2]; split.
  - assert (H : inject_Z 0 <= inject_Z z) by (change (inject_Z 0) with 0; lra).
    rewrite <- Zle_Qle in H; exact H.
  - assert (H : inject_Z z <= inject_Z 199) by (change (inject_Z 199) with 199; lra).
    rewrite <- Zle_Qle in H; exact H.
Qed.

(** The slider only ever yields a value 0.01 + k * 0.01 with k in 0..199,
    and a value already on that grid is kept as it is. *)
Theorem slider_grid (raw : Q) :
  (exists k, (0 <= k <= 199)%Z /\
     range_value DX_MIN DX_MAX DX_STEP raw = DX_MIN + inject_Z k * DX_STEP) /\
  (forall k, (0 <= k <= 199)%Z ->
     range_value DX_MIN DX_MAX DX_STEP (DX_MIN + inject_Z k * DX_STEP)
     == DX_MIN + inject_Z k * DX_STEP).
Proof.
  split.
  - pose proof (range_value_bounds raw) as Hb; revert Hb; unfold range_value.
    set (c := if Qlt_bool raw DX_MIN then DX_MIN
              else if Qlt_bool DX_MAX raw then DX_MAX else raw).
    set (k := Qfloor ((c - DX_MIN) / DX_STEP + (1 # 2))).
    destruct (Qlt_bool DX_MAX (DX_MIN + inject_Z k * DX_STEP)); intro Hb.
    + exists (k - 1)%Z; split; [apply grid_index_bounds, Hb | reflexivity].
    + exists k; split; [apply grid_index_bounds, Hb | reflexivity].
  - intros k Hk; unfold range_value.
    assert (Hq : inject_Z 0 <= inject_Z k <= inject_Z 199) by (rewrite <- !Zle_Qle; lia).
    change (inject_Z 0) with 0 in Hq; change (inject_Z 199) with 199 in Hq.
    unfold DX_MIN, DX_MAX, DX_STEP in *.
    destruct (Qlt_bool ((1 # 100) + inject_Z k * (1 # 100)) (1 # 100)) eqn:E1.
    { apply Qlt_bool_iff in E1; lra. }
    destruct (Qlt_bool 2 ((1 # 100) + inject_Z k * (1 # 100))) eqn:E2.
    { apply Qlt_bool_iff in E2; lra. }
    assert (Hf : Qfloor (((1 # 100) + inject_Z k * (1 # 100) - (1 # 100)) / (1 # 100) + (1 # 2))
                 = k).
    { rewrite (Qfloor_comp _ (inject_Z k + (1 # 2)))
        by (unfold Qdiv; change (/ (1 # 100)) with 100; ring).
      destruct (Qfloor_bounds (inject_Z k + (1 # 2))) as [H1 H2].
      rewrite inject_Z_plus in H2; change (inject_Z 1) with 1 in H2.
      assert (Ha : inject_Z (Qfloor (inject_Z k + (1 # 2))) < inject_Z (k + 1))
        by (rewrite inject_Z_plus; change (inject_Z 1) with 1; lra).
      assert (Hb : inject_Z (k - 1) < inject_Z (Qfloor (inject_Z k + (1 # 2))))
        by (unfold Z.sub; rewrite inject_Z_plus, inject_Z_opp; change (inject_Z 1) with 1; lra).
      rewrite <- Zlt_Qlt in Ha, Hb; lia. }
    rewrite Hf.
    destruct (Qlt_bool 2 ((1 # 100) + inject_Z k * (1 # 100))); [discriminate | reflexivity].
Qed.

(** ** Preset buttons *)

(** After a click on a preset p, exactly the button of p is marked active:
    the presets are at least 0.09 apart, so no two buttons are ever active
    together. *)
Theorem preset_click_active (s : State) (p : Q) :
  In p presets ->
  forall q, In q presets ->
  (preset_active (deltaX (set_deltaX p s)) q = true <-> q = p).
Proof.
  intros Hp q Hq; cbn [deltaX set_deltaX].
  unfold preset_active, Math_abs; rewrite Qlt_bool_iff.
  split; [|intros ->; setoid_replace (p - p) with 0 by ring; reflexivity].
  rewrite Qabs_Qlt_condition.
  simpl in Hp, Hq.
  repeat destruct Hp as [<-|Hp]; try contradiction;
  repeat destruct Hq as [<-|Hq]; try contradiction;
  intros [H1 H2]; first [reflexivity | exfalso; lra].
Qed.

Lemma preset_click_active_witness :
  In (1 # 2) presets /\ In (1 # 2) presets /\
  (preset_active (deltaX (set_deltaX (1 # 2) init)) (1 # 2) = true <-> (1 # 2) = (1 # 2)).
Proof.
  assert (H : In (1 # 2) presets) by (simpl; tauto).
  split; [exact H|]. split; [exact H|].
  exact (preset_click_active init (1 # 2) H (1 # 2) H).
Defined.

(** In every reachable state deltaX is a point 0.01 + k * 0.01 (k in 0..199)
    of the slider's grid: the initial 1.5 and all five presets lie on it, and
    the slider only produces grid values. *)
Theorem deltaX_on_grid (s : State) :
  reachable s ->
  exists k, (0 <= k <= 199)%Z /\ deltaX s == DX_MIN + inject_Z k * DX_STEP.
Proof.
  induction 1 as [|s s' _ _ Hst].
  - exists 149%Z; split; [lia | reflexivity].
  - destruct Hst as [s0 raw | s0 p Hp]; cbn [deltaX set_deltaX].
    + destruct (proj1 (slider_grid raw)) as [k [Hk E]].
      exists k; split; [exact Hk | rewrite E; reflexivity].
    + simpl in Hp; repeat destruct Hp as [<-|Hp]; try contradiction.
      * exists 199%Z; split; [lia | reflexivity].
      * exists 99%Z; split; [lia | reflexivity].
      * exists 49%Z; split; [lia | reflexivity].
      * exists 9%Z; split; [lia | reflexivity].
      * exists 0%Z; split; [lia | reflexivity].
Qed.

Lemma deltaX_on_grid_witness :
  reachable init /\
  exists k, (0 <= k <= 199)%Z /\ deltaX init == DX_MIN + inject_Z k * DX_STEP.
Proof. split; [apply reach_init | apply deltaX_on_grid, reach_init]. Defined.
